(** * splaat.audio.prep: the [prep_audio] conditioning pipeline

    A shallow embedding of [src/splaat/audio/prep.py] and the properties of
    its stages: resampling, polarity normalisation, pre-emphasis, amplitude
    scaling, dithering and integer quantisation.

    The waveform is a one-dimensional array of floating-point samples.  A
    sample is modelled as an exact rational, or one of the IEEE special
    values the code can produce (the infinities and NaN): NumPy's float
    division does not raise on a zero divisor, it yields these values.
    Rounding of the individual sample operations is not modelled, and
    neither is the sign of zero.  One conversion is modelled: that of the
    integer multiplier [np.iinfo(output_type).max] to the floating format of
    the array, because the largest 64-bit integer is not a floating-point
    number and the multiplier itself changes.

    The functions of SciPy and librosa that the source calls are not part of
    the repository: the resampler is a parameter of the pipeline, and the
    pre-emphasis filter follows the library's documentation.  Rates are
    unbounded integers; the arithmetic on them is that of the source for
    rates of magnitude up to [2^53].  The in-place updates of
    the source are modelled as new lists, and the message printed when
    [quiet] is false is left out. *)

From Stdlib Require Import ZArith QArith Qreduction List Bool String.
From Stdlib Require Import Lia Lqa.
Import ListNotations.

Local Open Scope Z_scope.

(** ** Python exceptions and results *)

Inductive exception : Type :=
| ValueError
| TypeError
| ZeroDivisionError.

Inductive result (A : Type) : Type :=
| Ok (a : A)
| Raise (e : exception).

Arguments Ok {A} a.
Arguments Raise {A} e.

Definition bind {A B : Type} (c : result A) (k : A -> result B) : result B :=
  match c with
  | Ok a => k a
  | Raise e => Raise e
  end.

Notation "x <- c ;; k" := (bind c (fun x => k))
  (at level 61, c at next level, right associativity).
Notation "' p <- c ;; k" := (bind c (fun x => match x with p => k end))
  (at level 61, p pattern, c at next level, right associativity).

Definition raises {A : Type} (c : result A) : Prop :=
  exists e, c = Raise e.

Definition returns {A : Type} (c : result A) : Prop :=
  exists a, c = Ok a.

(** ** Samples *)

Inductive sample : Type :=
| Fin (q : Q)
| PInf
| NInf
| NaN.

Definition zero : sample := Fin 0.
Definition one : sample := Fin 1.

Definition is_finite (a : sample) : bool :=
  match a with
  | Fin _ => true
  | _ => false
  end.

Definition Qltb (a b : Q) : bool := negb (Qle_bool b a).

(** The larger and the smaller of two rationals, as [fmaximum] and
    [fminimum] below choose them on finite samples. *)
Definition qmax (a b : Q) : Q := if Qltb a b then b else a.
Definition qmin (a b : Q) : Q := if Qltb b a then b else a.

(** Unary minus. *)
Definition fneg (a : sample) : sample :=
  match a with
  | Fin q => Fin (- q)
  | PInf => NInf
  | NInf => PInf
  | NaN => NaN
  end.

Definition fadd (a b : sample) : sample :=
  match a, b with
  | NaN, _ | _, NaN => NaN
  | Fin x, Fin y => Fin (Qred (x + y))
  | PInf, NInf | NInf, PInf => NaN
  | PInf, _ | _, PInf => PInf
  | NInf, _ | _, NInf => NInf
  end.

Definition fsub (a b : sample) : sample := fadd a (fneg b).

(** The infinity carrying the sign of [q], NaN when [q] is zero. *)
Definition signed_inf (q : Q) : sample :=
  if Qeq_bool q 0 then NaN else if Qle_bool 0 q then PInf else NInf.

Definition fmul (a b : sample) : sample :=
  match a, b with
  | NaN, _ | _, NaN => NaN
  | Fin x, Fin y => Fin (Qred (x * y))
  | Fin x, PInf | PInf, Fin x => signed_inf x
  | Fin x, NInf | NInf, Fin x => signed_inf (- x)
  | PInf, PInf | NInf, NInf => PInf
  | PInf, NInf | NInf, PInf => NInf
  end.

(** Division as NumPy performs it on floats: a zero divisor raises nothing,
    [0/0] is NaN and [x/0] an infinity. *)
Definition fdiv (a b : sample) : sample :=
  match a, b with
  | NaN, _ | _, NaN => NaN
  | Fin x, Fin y => if Qeq_bool y 0 then signed_inf x else Fin (Qred (x / y))
  | Fin _, _ => zero
  | PInf, Fin y => if Qle_bool 0 y then PInf else NInf
  | NInf, Fin y => if Qle_bool 0 y then NInf else PInf
  | _, _ => NaN
  end.

(** [a < b]; every comparison with NaN is false. *)
Definition fltb (a b : sample) : bool :=
  match a, b with
  | NaN, _ | _, NaN => false
  | Fin x, Fin y => Qltb x y
  | _, NInf | PInf, _ => false
  | NInf, _ | _, PInf => true
  end.

(** [np.maximum] and [np.minimum]: NaN propagates. *)
Definition fmaximum (a b : sample) : sample :=
  match a, b with
  | NaN, _ | _, NaN => NaN
  | _, _ => if fltb a b then b else a
  end.

Definition fminimum (a b : sample) : sample :=
  match a, b with
  | NaN, _ | _, NaN => NaN
  | _, _ => if fltb b a then b else a
  end.

(** Round half to even, on a rational. *)
Definition rintQ (q : Q) : Z :=
  let n := Qnum q in
  let d := Zpos (Qden q) in
  let f := n / d in
  match 2 * (n mod d) ?= d with
  | Lt => f
  | Gt => f + 1
  | Eq => if Z.even f then f else f + 1
  end.

(** Floating formats of the sample array. *)
Inductive float_format : Type :=
| binary32
| binary64.

Definition precision (fmt : float_format) : Z :=
  match fmt with
  | binary32 => 24
  | binary64 => 53
  end.

(** The floating-point number of the given precision nearest to the integer
    [m] (ties to even), as an integer.  Integers of at most [p] bits are
    exact. *)
Definition round_int (p : Z) (m : Z) : Z :=
  let e := Z.log2 (Z.abs m) + 1 - p in
  if e <=? 0 then m
  else rintQ (Qmake m (Z.to_pos (2 ^ e))) * 2 ^ e.

Definition float_of_int (fmt : float_format) (m : Z) : sample :=
  Fin (inject_Z (round_int (precision fmt) m)).

(** ** The NumPy functions the source calls *)

Module np.

(** What can be passed as [output_type]: the NumPy scalar types, and any
    [other] hashable Python object, here by its name. *)
Inductive dtype : Type :=
| float16 | float32 | float64
| int8 | int16 | int32 | int64
| uint8 | uint16 | uint32 | uint64
| bool_
| other (name : string).

(** [np.iinfo(t).max] and [np.iinfo(t).min].  [np.iinfo] is defined on
    the integer types only; the source calls it under the guard that
    [output_type] is one of the four signed ones. *)
Definition iinfo_max (t : dtype) : Z :=
  match t with
  | int8 => 127
  | int16 => 32767
  | int32 => 2147483647
  | int64 => 9223372036854775807
  | uint8 => 255
  | uint16 => 65535
  | uint32 => 4294967295
  | uint64 => 18446744073709551615
  | _ => 0
  end.

Definition iinfo_min (t : dtype) : Z :=
  match t with
  | int8 => -128
  | int16 => -32768
  | int32 => -2147483648
  | int64 => -9223372036854775808
  | _ => 0
  end.

(** [np.max] and [np.min] of a one-dimensional array: a zero-size array
    has no maximum and the reduction raises [ValueError]. *)
Definition max (a : list sample) : result sample :=
  match a with
  | [] => Raise ValueError
  | x :: t => Ok (fold_left fmaximum t x)
  end.

Definition min (a : list sample) : result sample :=
  match a with
  | [] => Raise ValueError
  | x :: t => Ok (fold_left fminimum t x)
  end.

Definition gcd (a b : Z) : Z := Z.gcd a b.

Definition rint (a : sample) : sample :=
  match a with
  | Fin q => Fin (inject_Z (rintQ q))
  | _ => a
  end.

End np.

(** ** The pipeline *)

(** The array [prep_audio] returns: the floating samples, or the integers of
    the requested type after quantisation. *)
Inductive ndarray : Type :=
| Floats (a : list sample)
| Ints (t : np.dtype) (a : list Z).

(** [len(a)] of the returned array. *)
Definition size (a : ndarray) : nat :=
  match a with
  | Floats l => List.length l
  | Ints _ l => List.length l
  end.

(** [librosa.effects.preemphasis(y, coef=coef)], which is not part of the
    repository, as the library documents it: [scipy.signal.lfilter] with
    [b = [1, -coef]], [a = [1]] and the default initial state
    [zi = 2*y[0] - y[1]].  The first output is [y[0] + zi], every later one
    [y[n] - coef * y[n-1]].  With fewer than two samples there is no [y[1]]:
    [zi] is empty and [lfilter] raises [ValueError]. *)
Fixpoint preemphasis_from (prev : sample) (x : list sample) (coef : sample)
  : list sample :=
  match x with
  | [] => []
  | a :: t => fsub a (fmul coef prev) :: preemphasis_from a t coef
  end.

Definition preemphasis (x : list sample) (coef : sample)
  : result (list sample) :=
  match x with
  | a :: b :: t =>
      let zi := fsub (fmul (Fin 2) a) b in
      Ok (fadd a zi :: preemphasis_from a (b :: t) coef)
  | _ => Raise ValueError
  end.

(** [output_type in {np.int8, np.int16, np.int32, np.int64}] *)
Definition is_int_type (t : np.dtype) : bool :=
  match t with
  | np.int8 | np.int16 | np.int32 | np.int64 => true
  | _ => false
  end.

Section Pipeline.

(** [scipy.signal.resample_poly audio up down], which is not part of the
    repository; it may raise. *)
Variable resample_poly : list sample -> Z -> Z -> result (list sample).

(** The draws of [np.random.rand]: the [i]-th number of the call, in
    [[0, 1)]. *)
Variable random : nat -> Q.

(** The floating format of the array [audio]. *)
Variable fmt : float_format.

(** What the platform's conversion yields for a float that the integer
    type cannot hold (NumPy leaves it to the C cast). *)
Variable cast_invalid : np.dtype -> sample -> Z.

Definition rand (n : nat) : list sample :=
  map (fun i => Fin (random i)) (seq 0 n).

(** [a.astype(t)] on one sample, for an integer type [t]: truncation
    towards zero. *)
Definition astype (t : np.dtype) (a : sample) : Z :=
  match a with
  | Fin q =>
      let z := Z.quot (Qnum q) (Zpos (Qden q)) in
      if (np.iinfo_min t <=? z) && (z <=? np.iinfo_max t) then z
      else cast_invalid t a
  | _ => cast_invalid t a
  end.

(** Lines 77-84: resampling, when a different target rate is given.  The
    source takes [np.gcd] on 64-bit integers and divides in floating point;
    for rates of magnitude up to [2^53] both are the exact integer
    operations used here. *)
Definition resample (audio : list sample) (sample_rate : Z)
    (target_sample_rate : option Z) : result (list sample * Z) :=
  match target_sample_rate with
  | None => Ok (audio, sample_rate)
  | Some target =>
      if negb (target =? sample_rate) then
        let cd := np.gcd sample_rate target in
        audio' <- resample_poly audio (target / cd) (sample_rate / cd) ;;
        Ok (audio', target)
      else Ok (audio, target)
  end.

(** Lines 85-86: polarity. *)
Definition polarity (audio : list sample) : result (list sample) :=
  mx <- np.max audio ;;
  mn <- np.min audio ;;
  if fltb (fadd mx mn) zero then Ok (map fneg audio) else Ok audio.

(** Lines 87-88: pre-emphasis. *)
Definition preemph_stage (preemph : option sample) (audio : list sample)
  : result (list sample) :=
  match preemph with
  | Some coef => if fltb zero coef then preemphasis audio coef else Ok audio
  | None => Ok audio
  end.

(** Lines 89-90: scaling by the signed maximum. *)
Definition scale_stage (scale : option sample) (audio : list sample)
  : result (list sample) :=
  match scale with
  | Some s =>
      mx <- np.max audio ;;
      Ok (map (fun a => fdiv a (fmul mx s)) audio)
  | None => Ok audio
  end.

(** Lines 91-92: dither. *)
Definition dither_stage (dither : option sample) (audio : list sample)
  : list sample :=
  match dither with
  | Some d =>
      map (fun '(a, u) => fadd a (fmul (fsub u (Fin (1 # 2))) d))
          (combine audio (rand (List.length audio)))
  | None => audio
  end.

(** Line 94, on one sample. *)
Definition quantize1 (output_type : np.dtype) (a : sample) : Z :=
  astype output_type
    (np.rint (fmul (float_of_int fmt (np.iinfo_max output_type)) a)).

(** Lines 93-94: quantisation to an integer type. *)
Definition quantize (output_type : np.dtype) (audio : list sample)
  : ndarray :=
  if is_int_type output_type
  then Ints output_type (map (quantize1 output_type) audio)
  else Floats audio.

(** [prep_audio], lines 77-95. *)
Definition prep_audio (audio : list sample) (sample_rate : Z)
    (target_sample_rate : option Z) (dither preemph scale : option sample)
    (output_type : np.dtype) (quiet : bool) : result (ndarray * Z) :=
  '(audio, target_sample_rate) <-
      resample audio sample_rate target_sample_rate ;;
  audio <- polarity audio ;;
  audio <- preemph_stage preemph audio ;;
  audio <- scale_stage scale audio ;;
  let audio := dither_stage dither audio in
  Ok (quantize output_type audio, target_sample_rate).

End Pipeline.

(** ** A concrete environment, for evaluating the pipeline *)

(** A stand-in for [scipy.signal.resample_poly]: factors below 1 are
    rejected, otherwise every sample is held [up] times and one sample in
    [down] is kept. *)
Fixpoint keep_every (k skip : nat) (l : list sample) : list sample :=
  match l with
  | [] => []
  | a :: t =>
      match skip with
      | O => a :: keep_every k (k - 1) t
      | S skip' => keep_every k skip' t
      end
  end.

Definition hold_resample (audio : list sample) (up down : Z)
  : result (list sample) :=
  if (up <? 1) || (down <? 1) then Raise ValueError
  else Ok (keep_every (Z.to_nat down) 0
             (flat_map (fun a => repeat a (Z.to_nat up)) audio)).

(** A generator that always draws one quarter. *)
Definition quarter (i : nat) : Q := 1 # 4.

(** A platform on which an invalid conversion gives the most negative value
    of the type. *)
Definition cast_min (t : np.dtype) (a : sample) : Z := np.iinfo_min t.

Definition prep_audio64 :=
  prep_audio hold_resample quarter binary64 cast_min.

(** ** Maximum and minimum of a waveform of real samples *)

Lemma Qltb_lt (a b : Q) : Qltb a b = true <-> (a < b)%Q.
Proof.
  unfold Qltb. rewrite negb_true_iff. split; intro H.
  - apply Qnot_le_lt. intro Hle. apply Qle_bool_iff in Hle. congruence.
  - destruct (Qle_bool b a) eqn:E; [|reflexivity].
    apply Qle_bool_iff in E. exfalso. exact (Qlt_not_le _ _ H E).
Qed.

Lemma Qltb_ge (a b : Q) : Qltb a b = false <-> (b <= a)%Q.
Proof.
  unfold Qltb. rewrite negb_false_iff. apply Qle_bool_iff.
Qed.

Lemma fold_fmaximum_Fin (t : list Q) (a : Q) :
  fold_left fmaximum (map Fin t) (Fin a) = Fin (fold_left qmax t a).
Proof.
  revert a. induction t as [|b t IH]; intro a; simpl; [reflexivity|].
  unfold qmax at 2. destruct (Qltb a b); apply IH.
Qed.

Lemma fold_fminimum_Fin (t : list Q) (a : Q) :
  fold_left fminimum (map Fin t) (Fin a) = Fin (fold_left qmin t a).
Proof.
  revert a. induction t as [|b t IH]; intro a; simpl; [reflexivity|].
  unfold qmin at 2. destruct (Qltb b a); apply IH.
Qed.

Lemma fold_qmax_In (t : list Q) (a : Q) : In (fold_left qmax t a) (a :: t).
Proof.
  revert a. induction t as [|b t IH]; intro a; simpl; [now left|].
  destruct (IH (qmax a b)) as [H|H]; [|now right; right].
  rewrite <- H. unfold qmax. destruct (Qltb a b); [right|]; now left.
Qed.

Lemma fold_qmin_In (t : list Q) (a : Q) : In (fold_left qmin t a) (a :: t).
Proof.
  revert a. induction t as [|b t IH]; intro a; simpl; [now left|].
  destruct (IH (qmin a b)) as [H|H]; [|now right; right].
  rewrite <- H. unfold qmin. destruct (Qltb b a); [right|]; now left.
Qed.

Lemma fold_qmax_ge_init (t : list Q) (a : Q) : (a <= fold_left qmax t a)%Q.
Proof.
  revert a. induction t as [|b t IH]; intro a; simpl; [apply Qle_refl|].
  eapply Qle_trans; [|apply IH]. unfold qmax.
  destruct (Qltb a b) eqn:E; [apply Qlt_le_weak, Qltb_lt, E|apply Qle_refl].
Qed.

Lemma fold_qmin_le_init (t : list Q) (a : Q) : (fold_left qmin t a <= a)%Q.
Proof.
  revert a. induction t as [|b t IH]; intro a; simpl; [apply Qle_refl|].
  eapply Qle_trans; [apply IH|]. unfold qmin.
  destruct (Qltb b a) eqn:E; [apply Qlt_le_weak, Qltb_lt, E|apply Qle_refl].
Qed.

Lemma fold_qmax_upper (t : list Q) (a x : Q) :
  In x (a :: t) -> (x <= fold_left qmax t a)%Q.
Proof.
  revert a. induction t as [|b t IH]; intros a Hin.
  - destruct Hin as [<-|[]]. apply Qle_refl.
  - destruct Hin as [<-|Hin]; [apply fold_qmax_ge_init|].
    simpl. destruct Hin as [<-|Hin].
    + eapply Qle_trans; [|apply fold_qmax_ge_init]. unfold qmax.
      destruct (Qltb a b) eqn:E; [apply Qle_refl|apply Qltb_ge, E].
    + apply IH. now right.
Qed.

Lemma fold_qmin_lower (t : list Q) (a x : Q) :
  In x (a :: t) -> (fold_left qmin t a <= x)%Q.
Proof.
  revert a. induction t as [|b t IH]; intros a Hin.
  - destruct Hin as [<-|[]]. apply Qle_refl.
  - destruct Hin as [<-|Hin]; [apply fold_qmin_le_init|].
    simpl. destruct Hin as [<-|Hin].
    + eapply Qle_trans; [apply fold_qmin_le_init|]. unfold qmin.
      destruct (Qltb b a) eqn:E; [apply Qle_refl|apply Qltb_ge, E].
    + apply IH. now right.
Qed.

(** The maximum and the minimum of a non-empty waveform of real samples are
    samples of it and bound it. *)
Lemma np_max_real (xs : list Q) :
  xs <> [] ->
  exists mx, np.max (map Fin xs) = Ok (Fin mx) /\ In mx xs /\
             forall x, In x xs -> (x <= mx)%Q.
Proof.
  destruct xs as [|a t]; [congruence|]. intros _.
  exists (fold_left qmax t a). simpl. rewrite fold_fmaximum_Fin.
  split; [reflexivity|]. split; [apply fold_qmax_In|].
  intros x Hx. now apply fold_qmax_upper.
Qed.

Lemma np_min_real (xs : list Q) :
  xs <> [] ->
  exists mn, np.min (map Fin xs) = Ok (Fin mn) /\ In mn xs /\
             forall x, In x xs -> (mn <= x)%Q.
Proof.
  destruct xs as [|a t]; [congruence|]. intros _.
  exists (fold_left qmin t a). simpl. rewrite fold_fminimum_Fin.
  split; [reflexivity|]. split; [apply fold_qmin_In|].
  intros x Hx. now apply fold_qmin_lower.
Qed.

Lemma map_fneg_Fin (xs : list Q) :
  map fneg (map Fin xs) = map Fin (map Qopp xs).
Proof.
  rewrite !map_map. reflexivity.
Qed.

Lemma fltb_sum_zero (a b : Q) :
  fltb (fadd (Fin a) (Fin b)) zero = true <-> (a + b < 0)%Q.
Proof.
  unfold zero. cbn [fltb fadd]. rewrite Qltb_lt, Qred_correct. reflexivity.
Qed.

(** ** The polarity stage *)

Lemma polarity_real (xs : list Q) (mx mn : Q) :
  np.max (map Fin xs) = Ok (Fin mx) ->
  np.min (map Fin xs) = Ok (Fin mn) ->
  polarity (map Fin xs) =
  Ok (if Qltb (mx + mn) 0 then map fneg (map Fin xs) else map Fin xs).
Proof.
  intros Hmx Hmn. unfold polarity. rewrite Hmx, Hmn. cbn [bind].
  destruct (Qltb (mx + mn) 0) eqn:E.
  - apply Qltb_lt, fltb_sum_zero in E. now rewrite E.
  - destruct (fltb (fadd (Fin mx) (Fin mn)) zero) eqn:F; [|reflexivity].
    apply fltb_sum_zero, Qltb_lt in F. congruence.
Qed.

(** After the polarity stage the extremes of a real waveform have a
    non-negative sum. *)
Lemma negated_extremes (xs : list Q) (mx mn mx' mn' : Q) :
  In mn xs -> (forall x, In x xs -> (x <= mx)%Q) ->
  (forall y, In y (map Qopp xs) -> (y <= mx')%Q) ->
  In mn' (map Qopp xs) ->
  (mx + mn < 0)%Q -> (0 <= mx' + mn')%Q.
Proof.
  intros Hmn Hub Hub' Hmn' Hneg.
  apply in_map_iff in Hmn'. destruct Hmn' as [y [<- Hy]].
  assert (H1 : (- mn <= mx')%Q) by (apply Hub', in_map, Hmn).
  assert (H2 : (y <= mx)%Q) by (apply Hub, Hy).
  lra.
Qed.

(** C9. For every non-empty waveform [x] of real samples that enters the
    polarity stage: when [max(x) + min(x) < 0] the output [y] is [-x], every
    sample negated, and [max(y) + min(y) >= 0]; otherwise the output is [x]
    unchanged. *)
Theorem polarity_invariant (xs : list Q) :
  xs <> [] ->
  exists mx mn : Q,
    np.max (map Fin xs) = Ok (Fin mx) /\
    np.min (map Fin xs) = Ok (Fin mn) /\
    ((mx + mn < 0)%Q ->
       polarity (map Fin xs) = Ok (map fneg (map Fin xs)) /\
       exists mx' mn' : Q,
         np.max (map fneg (map Fin xs)) = Ok (Fin mx') /\
         np.min (map fneg (map Fin xs)) = Ok (Fin mn') /\
         (0 <= mx' + mn')%Q) /\
    (~ (mx + mn < 0)%Q -> polarity (map Fin xs) = Ok (map Fin xs)).
Proof.
  intro Hne.
  destruct (np_max_real xs Hne) as [mx [Hmx [Imx Umx]]].
  destruct (np_min_real xs Hne) as [mn [Hmn [Imn Lmn]]].
  exists mx, mn. split; [exact Hmx|]. split; [exact Hmn|].
  rewrite (polarity_real xs mx mn Hmx Hmn). split.
  - intro Hneg. split.
    + apply Qltb_lt in Hneg. now rewrite Hneg.
    + rewrite map_fneg_Fin.
      assert (Hne' : map Qopp xs <> [])
        by (destruct xs; [congruence|discriminate]).
      destruct (np_max_real _ Hne') as [mx' [Hmx' [Imx' Umx']]].
      destruct (np_min_real _ Hne') as [mn' [Hmn' [Imn' Lmn']]].
      exists mx', mn'. split; [exact Hmx'|]. split; [exact Hmn'|].
      now apply (negated_extremes xs mx mn mx' mn').
  - intro Hnn. destruct (Qltb (mx + mn) 0) eqn:E; [|reflexivity].
    apply Qltb_lt in E. contradiction.
Qed.

(** The polarity stage on a non-empty real waveform [xs]: its output is
    [xs] or the negation of [xs], and the extremes of the output have a
    non-negative sum. *)
Lemma polarity_shape (xs : list Q) :
  xs <> [] ->
  exists (ys : list Q) (mx mn : Q),
    polarity (map Fin xs) = Ok (map Fin ys) /\
    ys <> [] /\ (ys = xs \/ ys = map Qopp xs) /\
    np.max (map Fin ys) = Ok (Fin mx) /\
    np.min (map Fin ys) = Ok (Fin mn) /\
    In mx ys /\ In mn ys /\
    (forall q, In q ys -> (mn <= q <= mx)%Q) /\
    (0 <= mx + mn)%Q.
Proof.
  intro Hne.
  destruct (np_max_real xs Hne) as [mx [Hmx [Imx Umx]]].
  destruct (np_min_real xs Hne) as [mn [Hmn [Imn Lmn]]].
  rewrite (polarity_real xs mx mn Hmx Hmn).
  destruct (Qltb (mx + mn) 0) eqn:E.
  - apply Qltb_lt in E.
    assert (Hne' : map Qopp xs <> [])
      by (destruct xs; [congruence|discriminate]).
    destruct (np_max_real _ Hne') as [mx' [Hmx' [Imx' Umx']]].
    destruct (np_min_real _ Hne') as [mn' [Hmn' [Imn' Lmn']]].
    exists (map Qopp xs), mx', mn'. rewrite map_fneg_Fin.
    repeat split; auto.
    now apply (negated_extremes xs mx mn mx' mn').
  - apply Qltb_ge in E.
    exists xs, mx, mn. repeat split; auto.
Qed.


(** ** The scaling stage *)

Lemma Qeq_bool_false (a : Q) : ~ (a == 0)%Q -> Qeq_bool a 0 = false.
Proof.
  intro H. destruct (Qeq_bool a 0) eqn:E; [|reflexivity].
  apply Qeq_bool_iff in E. contradiction.
Qed.

(** Dividing a real waveform by a non-zero real. *)
Lemma map_fdiv_real (ys : list Q) (d : Q) :
  ~ (d == 0)%Q ->
  map (fun a => fdiv a (Fin d)) (map Fin ys) =
  map Fin (map (fun q => Qred (q / d)) ys).
Proof.
  intro Hd. rewrite !map_map. apply map_ext. intro q.
  cbn [fdiv]. now rewrite (Qeq_bool_false d Hd).
Qed.


(** ** No stage after an empty check raises *)

Lemma np_max_returns (a : list sample) : a <> [] -> returns (np.max a).
Proof.
  destruct a as [|x t]; [congruence|]. intros _. now eexists.
Qed.

Lemma np_min_returns (a : list sample) : a <> [] -> returns (np.min a).
Proof.
  destruct a as [|x t]; [congruence|]. intros _. now eexists.
Qed.

Lemma polarity_returns (audio : list sample) :
  audio <> [] ->
  exists y, polarity audio = Ok y /\ y <> [] /\
            (y = audio \/ y = map fneg audio).
Proof.
  intro Hne. unfold polarity.
  destruct (np_max_returns audio Hne) as [mx ->].
  destruct (np_min_returns audio Hne) as [mn ->]. cbn [bind].
  destruct (fltb (fadd mx mn) zero); eexists; split; try reflexivity.
  - split; [|now right]. destruct audio; [congruence|discriminate].
  - split; [exact Hne|now left].
Qed.

Lemma scale_stage_returns (scale : option sample) (y : list sample) :
  y <> [] -> returns (scale_stage scale y).
Proof.
  intro Hne. unfold scale_stage. destruct scale as [s|]; [|now eexists].
  destruct (np_max_returns y Hne) as [mx ->]. now eexists.
Qed.

(** A zero divisor: whatever [scale] is, a zero peak times [scale] is zero
    or NaN, and no quotient by it is a finite number. *)
Lemma fdiv_zero_peak (a s : sample) (z : Q) :
  (z == 0)%Q -> is_finite (fdiv a (fmul (Fin z) s)) = false.
Proof.
  intro Hz.
  assert (Hs : forall q, (q == 0)%Q -> signed_inf q = NaN).
  { intros q Hq. unfold signed_inf.
    apply Qeq_bool_iff in Hq. now rewrite Hq. }
  assert (Hi : forall q, is_finite (signed_inf q) = false).
  { intro q. unfold signed_inf.
    destruct (Qeq_bool q 0); [reflexivity|].
    destruct (Qle_bool 0 q); reflexivity. }
  destruct s as [q| | |]; cbn [fmul].
  - assert (Hd : Qeq_bool (Qred (z * q)) 0 = true).
    { apply Qeq_bool_iff. rewrite Qred_correct, Hz. ring. }
    destruct a as [x| | |]; cbn [fdiv]; try reflexivity.
    + rewrite Hd. apply Hi.
    + destruct (Qle_bool 0 (Qred (z * q))); reflexivity.
    + destruct (Qle_bool 0 (Qred (z * q))); reflexivity.
  - rewrite (Hs z Hz). destruct a; reflexivity.
  - rewrite (Hs (- z)%Q) by (rewrite Hz; ring). destruct a; reflexivity.
  - destruct a; reflexivity.
Qed.

(** ** Rounding to the nearest integer *)

(** [np.rint] is an odd function. *)
Lemma rintQ_opp (q : Q) : rintQ (- q) = - rintQ q.
Proof.
  destruct q as [n d]. unfold rintQ. cbn [Qopp Qnum Qden].
  assert (Hd : Zpos d <> 0) by lia.
  pose proof (Z.mod_pos_bound n (Zpos d) ltac:(lia)) as Hr.
  destruct (Z.eq_dec (n mod Zpos d) 0) as [H0|Hnz].
  - rewrite (Z.div_opp_l_z _ _ Hd H0), (Z.mod_opp_l_z _ _ Hd H0), H0.
    rewrite Z.mul_0_r. reflexivity.
  - rewrite (Z.div_opp_l_nz _ _ Hd Hnz), (Z.mod_opp_l_nz _ _ Hd Hnz).
    set (f := n / Zpos d). set (r := n mod Zpos d) in *.
    assert (He : Z.even (- f - 1) = negb (Z.even f)).
    { rewrite Z.even_sub, Z.even_opp. cbn. now destruct (Z.even f). }
    destruct (Z.compare_spec (2 * r) (Zpos d)) as [E|E|E];
      destruct (Z.compare_spec (2 * (Zpos d - r)) (Zpos d)) as [F|F|F];
      try lia.
    rewrite He. destruct (Z.even f); cbn [negb]; lia.
Qed.

(** A rational below an integer rounds below it. *)
Lemma rintQ_le (q : Q) (m : Z) : (q <= inject_Z m)%Q -> rintQ q <= m.
Proof.
  destruct q as [n d]. unfold Qle, rintQ. cbn [Qnum Qden inject_Z].
  intro Hle. rewrite Z.mul_1_r in Hle.
  pose proof (Z.mod_pos_bound n (Zpos d) ltac:(lia)) as Hr.
  pose proof (Z.div_mod n (Zpos d) ltac:(lia)) as Hdm.
  set (f := n / Zpos d) in *. set (r := n mod Zpos d) in *.
  assert (Hf : f <= m) by nia.
  destruct (Z.compare_spec (2 * r) (Zpos d)) as [E|E|E]; try lia.
  - assert (f < m) by nia. destruct (Z.even f); lia.
  - assert (f < m) by nia. lia.
Qed.

Lemma rintQ_ge (q : Q) (m : Z) : (inject_Z (- m) <= q)%Q -> - m <= rintQ q.
Proof.
  intro H. assert (Ho : (- q <= inject_Z m)%Q).
  { rewrite inject_Z_opp in H. lra. }
  apply rintQ_le in Ho. rewrite rintQ_opp in Ho. lia.
Qed.

(** Scaling a sample of magnitude at most one by a non-negative integer and
    rounding: the result is within the multiplier, and odd in the sample. *)
Lemma scaled_rint_bounds (m : Z) (v : Q) :
  0 <= m -> (- 1 <= v <= 1)%Q ->
  - m <= rintQ (Qred (inject_Z m * v)) <= m.
Proof.
  intros Hm [Hlo Hhi].
  assert (H0 : (0 <= inject_Z m)%Q)
    by (change 0%Q with (inject_Z 0); now rewrite <- Zle_Qle).
  split.
  - apply rintQ_ge. rewrite Qred_correct, inject_Z_opp. nra.
  - apply rintQ_le. rewrite Qred_correct. nra.
Qed.

Lemma scaled_rint_odd (m : Z) (v : Q) :
  rintQ (Qred (inject_Z m * - v)) = - rintQ (Qred (inject_Z m * v)).
Proof.
  rewrite <- rintQ_opp, <- Qred_opp. f_equal.
  apply Qred_complete. ring.
Qed.

(** ** The pre-emphasis filter *)

Lemma preemphasis_from_length (x : list sample) (prev coef : sample) :
  List.length (preemphasis_from prev x coef) = List.length x.
Proof.
  revert prev. induction x as [|a t IH]; intro prev; cbn; [reflexivity|].
  now rewrite IH.
Qed.

Lemma preemphasis_from_nth (x : list sample) (prev coef : sample) (n : nat) :
  (n < List.length x)%nat ->
  nth n (preemphasis_from prev x coef) NaN =
  fsub (nth n x NaN) (fmul coef (nth n (prev :: x) NaN)).
Proof.
  revert prev n. induction x as [|a t IH]; intros prev n Hn.
  - cbn in Hn. lia.
  - destruct n as [|n]; [reflexivity|].
    cbn [preemphasis_from nth]. rewrite IH by (cbn in Hn; lia).
    reflexivity.
Qed.

(** The filter needs two samples; given them it keeps the length. *)
Lemma preemphasis_returns (x : list sample) (coef : sample) :
  (2 <= List.length x)%nat ->
  exists w, preemphasis x coef = Ok w /\ List.length w = List.length x.
Proof.
  destruct x as [|a [|b t]]; cbn [List.length]; try lia. intros _.
  eexists. split; [reflexivity|].
  cbn [List.length preemphasis_from]. now rewrite preemphasis_from_length.
Qed.

Lemma preemphasis_short (x : list sample) (coef : sample) :
  (List.length x < 2)%nat -> preemphasis x coef = Raise ValueError.
Proof.
  destruct x as [|a [|b t]]; cbn [List.length]; try lia; reflexivity.
Qed.

Lemma preemph_stage_length (preemph : option sample) (y w : list sample) :
  preemph_stage preemph y = Ok w -> List.length w = List.length y.
Proof.
  unfold preemph_stage.
  assert (Hid : Ok y = Ok w -> List.length w = List.length y)
    by (intro H; now injection H as <-).
  destruct preemph as [c|]; [|exact Hid].
  destruct (fltb zero c); [|exact Hid].
  destruct (Nat.le_gt_cases 2 (List.length y)) as [H2|H1].
  - destruct (preemphasis_returns y c H2) as [w' [-> Hl]].
    intro H. now injection H as <-.
  - now rewrite (preemphasis_short y c H1).
Qed.

(** The stage returns when the filter is off, or is given two samples. *)
Lemma preemph_stage_returns (preemph : option sample) (y : list sample) :
  (forall c, preemph = Some c -> fltb zero c = true ->
             (2 <= List.length y)%nat) ->
  exists w, preemph_stage preemph y = Ok w /\
            List.length w = List.length y.
Proof.
  intro H. unfold preemph_stage.
  destruct preemph as [c|]; [|now exists y].
  destruct (fltb zero c) eqn:E; [|now exists y].
  apply preemphasis_returns. now apply (H c).
Qed.

Lemma polarity_length (audio y : list sample) :
  polarity audio = Ok y -> List.length y = List.length audio.
Proof.
  unfold polarity.
  destruct (np.max audio) as [mx|]; [|discriminate].
  destruct (np.min audio) as [mn|]; [|discriminate]. cbn [bind].
  destruct (fltb (fadd mx mn) zero); intro H; injection H as <-;
    [apply length_map|reflexivity].
Qed.

Lemma same_length_nonempty (y w : list sample) :
  List.length w = List.length y -> y <> [] -> w <> [].
Proof.
  destruct y; [congruence|]. destruct w; [discriminate|discriminate].
Qed.

(** ** The whole pipeline *)

Section Properties.

Variable resample_poly : list sample -> Z -> Z -> result (list sample).
Variable random : nat -> Q.
Variable fmt : float_format.
Variable cast_invalid : np.dtype -> sample -> Z.

(** With no target rate, or a target equal to the source rate, the
    resampler is not called. *)
Lemma resample_skipped (audio : list sample) (r : Z) (t : option Z) :
  t = None \/ t = Some r ->
  resample resample_poly audio r t = Ok (audio, r).
Proof.
  intros [-> | ->]; unfold resample; [reflexivity|].
  now rewrite Z.eqb_refl.
Qed.

(** The rates given to the resampler are divided by their greatest common
    divisor, which is not zero when the two rates differ. *)
Lemma gcd_nonzero (r target : Z) : target <> r -> np.gcd r target <> 0.
Proof.
  unfold np.gcd. intros Hd Hg.
  apply Z.gcd_eq_0 in Hg. lia.
Qed.

(** An exception of the resampler is the exception of the call. *)
Lemma prep_audio_resampler_error (audio : list sample) (r target : Z)
    (dither preemph scale : option sample) (o : np.dtype) (quiet : bool)
    (e : exception) :
  target <> r ->
  resample_poly audio (target / np.gcd r target) (r / np.gcd r target)
  = Raise e ->
  prep_audio resample_poly random fmt cast_invalid
    audio r (Some target) dither preemph scale o quiet = Raise e.
Proof.
  intros Hd He. unfold prep_audio, resample.
  apply Z.eqb_neq in Hd. rewrite Hd. cbn [negb]. now rewrite He.
Qed.

(** With every optional stage off, what remains is the polarity stage. *)
Lemma prep_audio_disabled (audio : list sample) (r : Z) (quiet : bool) :
  prep_audio resample_poly random fmt cast_invalid
    audio r None None None None np.float32 quiet =
  (y <- polarity audio ;; Ok (Floats y, r)).
Proof.
  unfold prep_audio. cbn [resample bind].
  destruct (polarity audio); reflexivity.
Qed.

(** C1, as the code has it. With every optional stage disabled the output
    rate is the source rate; the returned waveform is [x] sample for sample
    when [max(x) + min(x) >= 0], and [-x] when [max(x) + min(x) < 0]: the
    polarity stage is not optional. *)
Theorem identity_path (xs : list Q) (r : Z) (quiet : bool) :
  xs <> [] ->
  exists mx mn : Q,
    np.max (map Fin xs) = Ok (Fin mx) /\
    np.min (map Fin xs) = Ok (Fin mn) /\
    ((0 <= mx + mn)%Q ->
       prep_audio resample_poly random fmt cast_invalid
         (map Fin xs) r None None None None np.float32 quiet =
       Ok (Floats (map Fin xs), r)) /\
    ((mx + mn < 0)%Q ->
       prep_audio resample_poly random fmt cast_invalid
         (map Fin xs) r None None None None np.float32 quiet =
       Ok (Floats (map fneg (map Fin xs)), r)).
Proof.
  intro Hne.
  destruct (np_max_real xs Hne) as [mx [Hmx _]].
  destruct (np_min_real xs Hne) as [mn [Hmn _]].
  exists mx, mn. split; [exact Hmx|]. split; [exact Hmn|].
  rewrite prep_audio_disabled, (polarity_real xs mx mn Hmx Hmn).
  cbn [bind]. split; intro H.
  - apply Qltb_ge in H. now rewrite H.
  - apply Qltb_lt in H. now rewrite H.
Qed.




(** C4, as the code has it. When the maximum of the waveform at the
    scaling stage is exactly 0 and [scale] is provided, no error is
    signalled: NumPy's division yields NaN and infinities, and
    [prep_audio] returns a waveform in which no sample is a finite
    number. *)
Theorem zero_peak_scaling (audio : list sample) (r : Z)
    (preemph : option sample) (s : sample) (quiet : bool)
    (y w : list sample) (z : Q) :
  polarity audio = Ok y ->
  preemph_stage preemph y = Ok w ->
  np.max w = Ok (Fin z) ->
  (z == 0)%Q ->
  exists out : list sample,
    prep_audio resample_poly random fmt cast_invalid
      audio r None None preemph (Some s) np.float32 quiet =
    Ok (Floats out, r) /\
    Forall (fun v => is_finite v = false) out.
Proof.
  intros Hpol Hpre Hmax Hz.
  exists (map (fun a => fdiv a (fmul (Fin z) s)) w).
  split.
  - unfold prep_audio. cbn [resample bind]. rewrite Hpol.
    cbn [bind]. rewrite Hpre. cbn [bind scale_stage].
    rewrite Hmax. reflexivity.
  - apply Forall_map, Forall_forall. intros a _.
    now apply fdiv_zero_peak.
Qed.

(** C5. On the empty waveform [prep_audio] fails whatever the options are:
    the reduction [np.max] of a zero-size array raises (when the resampler
    is called first, it either raises or hands on an empty array). *)
Theorem empty_input (r : Z) (t : option Z)
    (dither preemph scale : option sample) (o : np.dtype) (quiet : bool) :
  (forall up down y, resample_poly [] up down = Ok y -> y = []) ->
  raises (prep_audio resample_poly random fmt cast_invalid
            [] r t dither preemph scale o quiet) /\
  (t = None \/ t = Some r ->
   prep_audio resample_poly random fmt cast_invalid
     [] r t dither preemph scale o quiet = Raise ValueError).
Proof.
  intro Hrs. split.
  - unfold prep_audio, resample. destruct t as [t|].
    + destruct (negb (t =? r)).
      * destruct (resample_poly [] _ _) as [y|e] eqn:E.
        -- apply Hrs in E. subst y. now exists ValueError.
        -- now exists e.
      * now exists ValueError.
    + now exists ValueError.
  - intro Ht. unfold prep_audio.
    now rewrite (resample_skipped [] r t Ht).
Qed.


(** C7, as the code has it. An [output_type] that is not one of the four
    signed integer types is not rejected: quantisation is skipped and the
    call behaves exactly as with [float32]. *)
Theorem unrecognized_output_type (audio : list sample) (r : Z)
    (t : option Z) (dither preemph scale : option sample) (o : np.dtype)
    (quiet : bool) :
  is_int_type o = false ->
  prep_audio resample_poly random fmt cast_invalid
    audio r t dither preemph scale o quiet =
  prep_audio resample_poly random fmt cast_invalid
    audio r t dither preemph scale np.float32 quiet.
Proof.
  intro Ho. unfold prep_audio, quantize. rewrite Ho. reflexivity.
Qed.

(** The quantiser on a real sample whose scaled, rounded value the integer
    type can hold. *)
Lemma quantize1_real (o : np.dtype) (v : Q) :
  let z := rintQ (Qred (inject_Z (round_int (precision fmt)
                                    (np.iinfo_max o)) * v)) in
  np.iinfo_min o <= z <= np.iinfo_max o ->
  quantize1 fmt cast_invalid o (Fin v) = z.
Proof.
  intros z Hz. unfold quantize1, float_of_int.
  cbn [fmul np.rint astype Qnum Qden inject_Z]. fold z.
  rewrite Z.quot_1_r.
  destruct Hz as [Hlo Hhi].
  apply Z.leb_le in Hlo, Hhi. now rewrite Hlo, Hhi.
Qed.

Lemma int_type_limits (o : np.dtype) :
  is_int_type o = true ->
  0 <= np.iinfo_max o /\ np.iinfo_min o = - np.iinfo_max o - 1.
Proof.
  destruct o; cbn; intro H; try discriminate; lia.
Qed.

(** On a sample of magnitude at most one, when the type's maximum is a
    number of the floating format: the product is rounded, no cast goes
    out of range, and the value stays within the maximum on both sides. *)
Lemma quantize1_unit (o : np.dtype) (v : Q) :
  is_int_type o = true ->
  round_int (precision fmt) (np.iinfo_max o) = np.iinfo_max o ->
  (- 1 <= v <= 1)%Q ->
  quantize1 fmt cast_invalid o (Fin v) =
  rintQ (Qred (inject_Z (np.iinfo_max o) * v)) /\
  - np.iinfo_max o <= quantize1 fmt cast_invalid o (Fin v)
                   <= np.iinfo_max o.
Proof.
  intros Ho Hrep Hv.
  destruct (int_type_limits o Ho) as [Hpos Hmin].
  pose proof (scaled_rint_bounds (np.iinfo_max o) v Hpos Hv) as Hb.
  rewrite quantize1_real by (cbv zeta; rewrite Hrep; lia).
  rewrite Hrep. split; [reflexivity|exact Hb].
Qed.

(** The integer types whose maximum is a number of the floating format:
    all but [int64], and for [binary32] all but [int64] and [int32]. *)
Lemma iinfo_max_exact (o : np.dtype) :
  is_int_type o = true ->
  (round_int (precision fmt) (np.iinfo_max o) = np.iinfo_max o <->
   o <> np.int64 /\ (fmt = binary32 -> o <> np.int32)).
Proof.
  destruct o; cbn [is_int_type]; intro H; try discriminate;
    destruct fmt; vm_compute; split;
    try (intros _; split; [discriminate|intro; discriminate]);
    try (intros _; split; discriminate);
    try discriminate;
    try (intros [Ha Hb]; first [now elim Ha | now elim Hb]).
Qed.

(** Where the type's maximum is a number of the array's floating format
    (for [binary64]: [int8], [int16], [int32]) and [|v| <= 1], the quantiser
    is odd, its value is within the type's positive maximum on both sides,
    and the type's most negative value is not produced. *)
Lemma quantize_odd (o : np.dtype) (v : Q) :
  is_int_type o = true ->
  round_int (precision fmt) (np.iinfo_max o) = np.iinfo_max o ->
  (- 1 <= v <= 1)%Q ->
  quantize1 fmt cast_invalid o (fneg (Fin v)) =
  - quantize1 fmt cast_invalid o (Fin v) /\
  - np.iinfo_max o <= quantize1 fmt cast_invalid o (Fin v)
                   <= np.iinfo_max o /\
  quantize1 fmt cast_invalid o (Fin v) <> np.iinfo_min o.
Proof.
  intros Ho Hrep Hv.
  destruct (int_type_limits o Ho) as [Hpos Hmin].
  assert (Hv' : (- 1 <= - v <= 1)%Q) by (destruct Hv; split; lra).
  destruct (quantize1_unit o v Ho Hrep Hv) as [Hq Hb].
  destruct (quantize1_unit o (- v) Ho Hrep Hv') as [Hq' _].
  cbn [fneg]. split; [|split; [exact Hb|lia]].
  rewrite Hq', Hq. apply scaled_rint_odd.
Qed.

(** C3, as the code has it. With [output_type = int16] and every sample
    entering the quantiser in [[-1, 1]], every output sample lies in
    [[-32767, 32767]], hence in the range of the type; 1.0 is quantised to
    32767 and -1.0 to -32767. *)
Theorem quantization_range (vs : list Q) :
  Forall (fun v => (- 1 <= v <= 1)%Q) vs ->
  exists zs : list Z,
    quantize fmt cast_invalid np.int16 (map Fin vs) = Ints np.int16 zs /\
    Forall (fun z => - 32767 <= z <= 32767) zs /\
    quantize1 fmt cast_invalid np.int16 (Fin 1) = 32767 /\
    quantize1 fmt cast_invalid np.int16 (Fin (- 1)) = - 32767.
Proof.
  intro Hvs.
  assert (Hrep : round_int (precision fmt) (np.iinfo_max np.int16)
                 = np.iinfo_max np.int16) by (destruct fmt; reflexivity).
  exists (map (quantize1 fmt cast_invalid np.int16) (map Fin vs)).
  split; [reflexivity|]. split.
  - rewrite map_map. apply Forall_map.
    eapply Forall_impl; [|exact Hvs]. intros v Hv.
    now apply (quantize1_unit np.int16 v).
  - split; destruct fmt; reflexivity.
Qed.

(** C8, as the code has it. With [preemph] provided and greater than 0
    the stage calls the library filter with its default initial state
    [2*x[0] - x[1]]: on a waveform of at least two samples it keeps the
    length, [y[0] = x[0] + (2*x[0] - x[1])], which is [3*x[0] - x[1]] and
    not [x[0]], and [y[n] = x[n] - preemph * x[n-1]] for every [n >= 1]; on
    a waveform of fewer than two samples the filter raises [ValueError].
    With [preemph] absent or not greater than 0 the waveform is left
    unchanged. *)
Theorem preemphasis_filter (x : list sample) (c : Q) :
  ((0 < c)%Q -> (2 <= List.length x)%nat ->
   exists y : list sample,
     preemph_stage (Some (Fin c)) x = Ok y /\
     List.length y = List.length x /\
     nth 0 y NaN =
     fadd (nth 0 x NaN) (fsub (fmul (Fin 2) (nth 0 x NaN)) (nth 1 x NaN)) /\
     (forall p q : Q,
         nth 0 x NaN = Fin p -> nth 1 x NaN = Fin q ->
         exists v : Q, nth 0 y NaN = Fin v /\ (v == 3 * p - q)%Q) /\
     forall n : nat,
       (1 <= n < List.length x)%nat ->
       nth n y NaN =
       fsub (nth n x NaN) (fmul (Fin c) (nth (n - 1) x NaN))) /\
  ((0 < c)%Q -> (List.length x < 2)%nat ->
   preemph_stage (Some (Fin c)) x = Raise ValueError) /\
  ((c <= 0)%Q -> preemph_stage (Some (Fin c)) x = Ok x) /\
  preemph_stage None x = Ok x.
Proof.
  unfold preemph_stage, zero. cbn [fltb]. split; [|split; [|split]].
  - intros Hc Hl. apply Qltb_lt in Hc. rewrite Hc.
    destruct x as [|a [|b t]]; cbn [List.length] in Hl; try lia.
    eexists. split; [reflexivity|].
    cbn [List.length preemphasis_from nth].
    rewrite preemphasis_from_length.
    split; [reflexivity|]. split; [reflexivity|]. split.
    + intros p q -> ->. cbn [fmul fsub fneg fadd].
      eexists. split; [reflexivity|]. rewrite !Qred_correct. ring.
    + intros [|[|n]] Hn; [lia|reflexivity|].
      cbn [List.length] in Hn.
      rewrite preemphasis_from_nth by (cbn [List.length]; lia).
      reflexivity.
  - intros Hc Hl. apply Qltb_lt in Hc. rewrite Hc.
    now apply preemphasis_short.
  - intro Hc. apply Qltb_ge in Hc. now rewrite Hc.
  - reflexivity.
Qed.

End Properties.

(** ** Further properties of the pipeline *)

Section Shape.

Variable resample_poly : list sample -> Z -> Z -> result (list sample).
Variable random : nat -> Q.
Variable fmt : float_format.
Variable cast_invalid : np.dtype -> sample -> Z.

Lemma scale_stage_length (scale : option sample) (y w : list sample) :
  scale_stage scale y = Ok w -> List.length w = List.length y.
Proof.
  unfold scale_stage. destruct scale as [s|].
  - destruct (np.max y) as [mx|]; [|discriminate]. cbn [bind].
    intro H. injection H as <-. apply length_map.
  - intro H. now injection H as <-.
Qed.

Lemma rand_length (n : nat) : List.length (rand random n) = n.
Proof.
  unfold rand. now rewrite length_map, length_seq.
Qed.

Lemma dither_stage_length (dither : option sample) (y : list sample) :
  List.length (dither_stage random dither y) = List.length y.
Proof.
  unfold dither_stage. destruct dither as [d|]; [|reflexivity].
  rewrite length_map, length_combine, rand_length. apply Nat.min_id.
Qed.

Lemma quantize_size (o : np.dtype) (y : list sample) :
  size (quantize fmt cast_invalid o y) = List.length y /\
  (is_int_type o = true ->
   exists zs, quantize fmt cast_invalid o y = Ints o zs) /\
  (is_int_type o = false -> quantize fmt cast_invalid o y = Floats y).
Proof.
  unfold quantize. destruct (is_int_type o); cbn [size].
  - split; [apply length_map|]. split; [|discriminate].
    intros _. now eexists.
  - split; [reflexivity|]. split; [discriminate|reflexivity].
Qed.

(** X1. Without resampling every stage keeps the number of samples: a
    non-empty waveform (of at least two samples when pre-emphasis is on)
    comes back with its length, as integers of the requested type when
    [output_type] is one of the four signed integer types and as floating
    samples otherwise, whatever the other options are. *)
Theorem prep_audio_size (audio : list sample) (r : Z) (t : option Z)
    (dither preemph scale : option sample) (o : np.dtype) (quiet : bool) :
  audio <> [] ->
  t = None \/ t = Some r ->
  (forall c, preemph = Some c -> fltb zero c = true ->
             (2 <= List.length audio)%nat) ->
  exists out : ndarray,
    prep_audio resample_poly random fmt cast_invalid
      audio r t dither preemph scale o quiet = Ok (out, r) /\
    size out = List.length audio /\
    (is_int_type o = true -> exists zs, out = Ints o zs) /\
    (is_int_type o = false -> exists ys, out = Floats ys).
Proof.
  intros Hne Ht Hp. unfold prep_audio.
  rewrite (resample_skipped resample_poly audio r t Ht). cbn [bind].
  destruct (polarity_returns audio Hne) as [y [Hy [Hyne _]]].
  rewrite Hy. cbn [bind].
  pose proof (polarity_length _ _ Hy) as Hly.
  destruct (preemph_stage_returns preemph y) as [w [Hw Hlw]];
    [now rewrite Hly|]. rewrite Hw. cbn [bind].
  destruct (scale_stage_returns scale w
              (same_length_nonempty y w Hlw Hyne)) as [v Hv].
  rewrite Hv. cbn [bind]. eexists. split; [reflexivity|].
  destruct (quantize_size o (dither_stage random dither v))
    as [Hs [Hi Hf]].
  split; [|split].
  - rewrite Hs, dither_stage_length, (scale_stage_length _ _ _ Hv).
    congruence.
  - exact Hi.
  - intro Ho. rewrite (Hf Ho). now eexists.
Qed.

(** X2. Whenever [prep_audio] returns, the rate it returns is the target
    rate if one was given and the source rate otherwise; the resampler has
    no say in it. *)
Theorem prep_audio_rate (audio : list sample) (r : Z) (t : option Z)
    (dither preemph scale : option sample) (o : np.dtype) (quiet : bool)
    (out : ndarray) (fs : Z) :
  prep_audio resample_poly random fmt cast_invalid
    audio r t dither preemph scale o quiet = Ok (out, fs) ->
  fs = match t with Some target => target | None => r end.
Proof.
  unfold prep_audio, resample. intro H.
  assert (Hk : forall (a : list sample) (rate : Z),
             (audio0 <- polarity a ;;
              audio1 <- preemph_stage preemph audio0 ;;
              audio2 <- scale_stage scale audio1 ;;
              Ok (quantize fmt cast_invalid o
                    (dither_stage random dither audio2), rate))
             = Ok (out, fs) -> fs = rate).
  { intros a rate. destruct (polarity a) as [y|]; [|discriminate].
    cbn [bind]. destruct (preemph_stage preemph y) as [v|]; [|discriminate].
    cbn [bind]. destruct (scale_stage scale v) as [w|]; [|discriminate].
    cbn [bind]. intro E. now injection E as _ <-. }
  destruct t as [target|].
  - destruct (negb (target =? r)).
    + destruct (resample_poly audio _ _) as [a|]; [|discriminate].
      cbn [bind] in H. now apply Hk in H.
    + cbn [bind] in H. now apply Hk in H.
  - cbn [bind] in H. now apply Hk in H.
Qed.

(** X3. When the target rate differs from the source rate, and both rates
    are of magnitude at most [2^53] (where the 64-bit [np.gcd] and the
    floating division of the source are exact), the resampler is called
    with the two rates divided by their greatest common divisor: the
    factors [up] and [down] are coprime, [up : down] is the ratio
    [target : source], and both are at least 1 when both rates are
    positive. *)
Theorem resample_factors (audio : list sample) (r target : Z) :
  Z.abs r <= 2 ^ 53 -> Z.abs target <= 2 ^ 53 ->
  target <> r ->
  exists up down : Z,
    resample resample_poly audio r (Some target) =
    (a <- resample_poly audio up down ;; Ok (a, target)) /\
    up * np.gcd r target = target /\
    down * np.gcd r target = r /\
    Z.gcd up down = 1 /\
    (0 < r -> 0 < target -> 1 <= up /\ 1 <= down).
Proof.
  intros _ _ Hd. pose proof (gcd_nonzero r target Hd) as Hg.
  unfold np.gcd in *. set (cd := Z.gcd r target) in *.
  assert (Hcd : 0 < cd) by (pose proof (Z.gcd_nonneg r target); lia).
  destruct (Z.gcd_divide_l r target) as [down Hdown].
  destruct (Z.gcd_divide_r r target) as [up Hup].
  fold cd in Hdown, Hup.
  assert (Eu : target / cd = up) by (rewrite Hup; now apply Z.div_mul).
  assert (Ed : r / cd = down) by (rewrite Hdown; now apply Z.div_mul).
  exists up, down. split; [|split; [|split; [|split]]].
  - unfold resample, np.gcd. fold cd. rewrite Eu, Ed.
    apply Z.eqb_neq in Hd. now rewrite Hd.
  - lia.
  - lia.
  - rewrite <- Eu, <- Ed, Z.gcd_comm.
    apply Z.gcd_div_gcd; [exact Hg|reflexivity].
  - intros Hr Ht. nia.
Qed.

End Shape.

(** ** More on the polarity stage *)

(** The extremes of the negated waveform are the negated extremes. *)
Lemma extremes_of_negation (xs : list Q) (mx mn mx' mn' : Q) :
  np.max (map Fin xs) = Ok (Fin mx) ->
  np.min (map Fin xs) = Ok (Fin mn) ->
  np.max (map Fin (map Qopp xs)) = Ok (Fin mx') ->
  np.min (map Fin (map Qopp xs)) = Ok (Fin mn') ->
  (mx' == - mn)%Q /\ (mn' == - mx)%Q.
Proof.
  intros Hmx Hmn Hmx' Hmn'.
  assert (Hne : xs <> []) by (destruct xs; [discriminate|congruence]).
  assert (Hne' : map Qopp xs <> [])
    by (destruct xs; [congruence|discriminate]).
  destruct (np_max_real xs Hne) as [a [Ha [Ia Ua]]].
  destruct (np_min_real xs Hne) as [b [Hb [Ib Lb]]].
  destruct (np_max_real _ Hne') as [a' [Ha' [Ia' Ua']]].
  destruct (np_min_real _ Hne') as [b' [Hb' [Ib' Lb']]].
  assert (a = mx) by congruence. assert (b = mn) by congruence.
  assert (a' = mx') by congruence. assert (b' = mn') by congruence.
  subst a b a' b'.
  apply in_map_iff in Ia', Ib'.
  destruct Ia' as [p [Hp Ip]]. destruct Ib' as [q [Hq Iq]].
  pose proof (Ua' _ (in_map Qopp _ _ Ib)) as H1.
  pose proof (Lb' _ (in_map Qopp _ _ Ia)) as H2.
  pose proof (Lb _ Ip) as H3. pose proof (Ua _ Iq) as H4.
  rewrite <- Hp in *. rewrite <- Hq in *. split; lra.
Qed.

Lemma map_Qopp_involutive (xs : list Q) : map Qopp (map Qopp xs) = xs.
Proof.
  rewrite map_map. rewrite <- (map_id xs) at 2. apply map_ext.
  intros [n d]. unfold Qopp. cbn [Qnum Qden]. now rewrite Z.opp_involutive.
Qed.

(** X4. The polarity stage is idempotent on real waveforms: applied to its
    own output it changes nothing, so a waveform is flipped at most once. *)
Theorem polarity_idempotent (xs : list Q) :
  xs <> [] ->
  exists y : list sample,
    polarity (map Fin xs) = Ok y /\ polarity y = Ok y.
Proof.
  intro Hne.
  destruct (polarity_shape xs Hne)
    as [ys [mx [mn [Hy [_ [_ [Hmx [Hmn [_ [_ [_ Hsum]]]]]]]]]]].
  exists (map Fin ys). split; [exact Hy|].
  rewrite (polarity_real ys mx mn Hmx Hmn).
  apply Qltb_ge in Hsum. now rewrite Hsum.
Qed.

(** X5. The polarity stage removes the polarity of its input: a real
    waveform [x] with [max(x) + min(x) <> 0] and its negation [-x] leave
    the stage as the same waveform. *)
Theorem polarity_canonical (xs : list Q) (mx mn : Q) :
  np.max (map Fin xs) = Ok (Fin mx) ->
  np.min (map Fin xs) = Ok (Fin mn) ->
  ~ (mx + mn == 0)%Q ->
  polarity (map fneg (map Fin xs)) = polarity (map Fin xs).
Proof.
  intros Hmx Hmn Hnz.
  assert (Hne' : map Qopp xs <> [])
    by (destruct xs; [discriminate|discriminate]).
  destruct (np_max_real _ Hne') as [mx' [Hmx' _]].
  destruct (np_min_real _ Hne') as [mn' [Hmn' _]].
  destruct (extremes_of_negation xs mx mn mx' mn' Hmx Hmn Hmx' Hmn')
    as [E1 E2].
  rewrite map_fneg_Fin.
  rewrite (polarity_real xs mx mn Hmx Hmn).
  rewrite (polarity_real _ mx' mn' Hmx' Hmn').
  destruct (Qlt_le_dec (mx + mn) 0) as [Hlt|Hge].
  - assert (H1 : Qltb (mx + mn) 0 = true) by now apply Qltb_lt.
    assert (H2 : Qltb (mx' + mn') 0 = false) by (apply Qltb_ge; lra).
    rewrite H1, H2. now rewrite map_fneg_Fin.
  - assert (H1 : Qltb (mx + mn) 0 = false) by now apply Qltb_ge.
    assert (H2 : Qltb (mx' + mn') 0 = true) by (apply Qltb_lt; lra).
    rewrite H1, H2. now rewrite map_fneg_Fin, map_Qopp_involutive.
Qed.

(** X6. After the polarity stage the signed maximum of a real waveform is
    its absolute peak: no sample exceeds it in magnitude.  This is the value
    the scaler divides by when pre-emphasis is off. *)
Theorem polarity_peak (xs : list Q) :
  xs <> [] ->
  exists (ys : list Q) (mx : Q),
    polarity (map Fin xs) = Ok (map Fin ys) /\
    np.max (map Fin ys) = Ok (Fin mx) /\
    In mx ys /\
    Forall (fun q => (- mx <= q <= mx)%Q) ys.
Proof.
  intro Hne.
  destruct (polarity_shape xs Hne)
    as [ys [mx [mn [Hy [_ [_ [Hmx [_ [Imx [_ [Hb Hsum]]]]]]]]]]].
  exists ys, mx. split; [exact Hy|]. split; [exact Hmx|].
  split; [exact Imx|].
  apply Forall_forall. intros q Hq. destruct (Hb q Hq). split; lra.
Qed.



(** ** More on the scaling stage *)

(** The signed maximum of a real waveform divided by a positive number. *)
Lemma max_of_quotients (ys : list Q) (mx d : Q) :
  In mx ys -> (forall q, In q ys -> (q <= mx)%Q) -> (0 < d)%Q ->
  np.max (map Fin (map (fun q => Qred (q / d)) ys)) =
  Ok (Fin (Qred (mx / d))).
Proof.
  intros Imx Umx Hd.
  assert (Hne' : map (fun q => Qred (q / d)) ys <> [])
    by (destruct ys; [contradiction|discriminate]).
  destruct (np_max_real _ Hne') as [m [Hm [Im Um]]].
  rewrite Hm. do 2 f_equal.
  apply in_map_iff in Im. destruct Im as [q0 [<- Hq0]].
  apply Qred_complete.
  assert (Hi : (0 <= / d)%Q) by (apply Qinv_le_0_compat; lra).
  assert (Hle : (q0 / d <= mx / d)%Q).
  { unfold Qdiv. apply Qmult_le_compat_r; [apply Umx, Hq0|exact Hi]. }
  assert (Hge : (Qred (mx / d) <= Qred (q0 / d))%Q).
  { apply Um, in_map_iff. exists mx. split; [reflexivity|exact Imx]. }
  rewrite !Qred_correct in Hge. lra.
Qed.

(** A waveform with a non-zero sample has a positive maximum after the
    polarity stage. *)
Lemma positive_peak (xs ys : list Q) (mx mn : Q) :
  (exists q, In q xs /\ ~ (q == 0)%Q) ->
  ys = xs \/ ys = map Qopp xs ->
  (forall q, In q ys -> (mn <= q <= mx)%Q) ->
  (0 <= mx + mn)%Q -> In mn ys ->
  (0 < mx)%Q.
Proof.
  intros [q [Iq Hq]] Hys Hb Hsum Imn.
  destruct (Qlt_le_dec 0 mx) as [Hpos|Hle]; [exact Hpos|exfalso].
  destruct (Hb mn Imn) as [_ Hmn].
  destruct Hys as [-> | ->].
  - destruct (Hb q Iq). apply Hq. lra.
  - destruct (Hb (- q)%Q (in_map Qopp _ _ Iq)). apply Hq. lra.
Qed.

(** NaN wins every maximum and every minimum. *)
Lemma fold_fmaximum_NaN (l : list sample) : fold_left fmaximum l NaN = NaN.
Proof.
  induction l as [|b t IH]; [reflexivity|]. exact IH.
Qed.

Lemma fold_fminimum_NaN (l : list sample) : fold_left fminimum l NaN = NaN.
Proof.
  induction l as [|b t IH]; [reflexivity|]. exact IH.
Qed.

Lemma fmaximum_NaN_r (a : sample) : fmaximum a NaN = NaN.
Proof. now destruct a. Qed.

Lemma fminimum_NaN_r (a : sample) : fminimum a NaN = NaN.
Proof. now destruct a. Qed.

Lemma np_max_NaN (audio : list sample) :
  In NaN audio -> np.max audio = Ok NaN.
Proof.
  destruct audio as [|a t]; [contradiction|]. cbn [np.max]. intro H.
  f_equal. revert a H. induction t as [|b t IH]; intros a H.
  - destruct H as [->|[]]. reflexivity.
  - cbn [fold_left]. destruct H as [->|[->|H]].
    + apply fold_fmaximum_NaN.
    + rewrite fmaximum_NaN_r. apply fold_fmaximum_NaN.
    + apply IH. now right.
Qed.

Lemma np_min_NaN (audio : list sample) :
  In NaN audio -> np.min audio = Ok NaN.
Proof.
  destruct audio as [|a t]; [contradiction|]. cbn [np.min]. intro H.
  f_equal. revert a H. induction t as [|b t IH]; intros a H.
  - destruct H as [->|[]]. reflexivity.
  - cbn [fold_left]. destruct H as [->|[->|H]].
    + apply fold_fminimum_NaN.
    + rewrite fminimum_NaN_r. apply fold_fminimum_NaN.
    + apply IH. now right.
Qed.

(** ** More on rounding *)

(** [np.rint] moves a number by at most one half. *)
Lemma rintQ_error (q : Q) :
  (- (1 # 2) <= inject_Z (rintQ q) - q <= 1 # 2)%Q.
Proof.
  destruct q as [n d].
  pose proof (Z.mod_pos_bound n (Zpos d) ltac:(lia)) as Hr.
  pose proof (Z.div_mod n (Zpos d) ltac:(lia)) as Hdm.
  unfold rintQ. cbn [Qnum Qden].
  set (f := n / Zpos d) in *. set (r := n mod Zpos d) in *.
  assert (Hcases : forall z : Z,
             - Zpos d <= 2 * (z * Zpos d - n) <= Zpos d ->
             (- (1 # 2) <= inject_Z z - (n # d) <= 1 # 2)%Q).
  { intros z Hz. unfold Qle, Qminus, Qplus, Qopp, inject_Z.
    cbn [Qnum Qden]. rewrite !Pos2Z.inj_mul. clear - Hz. lia. }
  apply Hcases.
  destruct (Z.compare_spec (2 * r) (Zpos d)) as [E|E|E]; try nia.
  destruct (Z.even f); nia.
Qed.

(** [np.rint] is monotone. *)
Lemma rintQ_mono (p q : Q) : (p <= q)%Q -> rintQ p <= rintQ q.
Proof.
  destruct p as [n d], q as [n' d']. unfold Qle, rintQ. cbn [Qnum Qden].
  intro Hle.
  pose proof (Z.mod_pos_bound n (Zpos d) ltac:(lia)) as Hr.
  pose proof (Z.div_mod n (Zpos d) ltac:(lia)) as Hdm.
  pose proof (Z.mod_pos_bound n' (Zpos d') ltac:(lia)) as Hr'.
  pose proof (Z.div_mod n' (Zpos d') ltac:(lia)) as Hdm'.
  set (f := n / Zpos d) in *. set (r := n mod Zpos d) in *.
  set (f' := n' / Zpos d') in *. set (r' := n' mod Zpos d') in *.
  clearbody f r f' r'. subst n n'.
  set (D := Zpos d) in *. set (D' := Zpos d') in *.
  assert (HD : 0 < D) by (unfold D; lia).
  assert (HD' : 0 < D') by (unfold D'; lia).
  clearbody D D'.
  assert (Hff : f <= f').
  { destruct (Z.le_gt_cases f f') as [H|H]; [exact H|exfalso].
    assert (0 <= (f - f' - 1) * (D * D')) by nia.
    assert (0 <= r * D') by nia.
    assert (r' * D < D' * D) by nia.
    nia. }
  destruct (Z.eq_dec f f') as [Heq|Hne].
  - subst f'. clear Hff.
    assert (Hrr : r * D' <= r' * D) by nia.
    destruct (Z.compare_spec (2 * r) D) as [E|E|E];
      destruct (Z.compare_spec (2 * r') D') as [E'|E'|E'];
      destruct (Z.even f); try lia; exfalso; nia.
  - assert (Hlt : f + 1 <= f') by lia.
    destruct (Z.compare_spec (2 * r) D) as [E|E|E];
      destruct (Z.compare_spec (2 * r') D') as [E'|E'|E'];
      destruct (Z.even f); destruct (Z.even f'); lia.
Qed.

Section Scaling.

Variable resample_poly : list sample -> Z -> Z -> result (list sample).
Variable random : nat -> Q.
Variable fmt : float_format.
Variable cast_invalid : np.dtype -> sample -> Z.

(** The pipeline with only the scaler on, for a waveform with a non-zero
    sample: the samples are those of the polarity stage divided by the
    positive product of the peak and [scale]. *)
Lemma scaled_output (xs : list Q) (r : Z) (quiet : bool) (s : Q)
    (dither : option sample) (o : np.dtype) :
  xs <> [] -> (0 < s)%Q ->
  (exists q, In q xs /\ ~ (q == 0)%Q) ->
  exists (ys : list Q) (mx d : Q),
    prep_audio resample_poly random fmt cast_invalid
      (map Fin xs) r None dither None (Some (Fin s)) o quiet =
    Ok (quantize fmt cast_invalid o
          (dither_stage random dither
             (map Fin (map (fun q => Qred (q / d)) ys))), r) /\
    In mx ys /\ Forall (fun q => (- mx <= q <= mx)%Q) ys /\
    (0 < mx)%Q /\ (d == mx * s)%Q /\
    List.length ys = List.length xs.
Proof.
  intros Hne Hs Hnz.
  destruct (polarity_shape xs Hne)
    as [ys [mx [mn [Hy [_ [Hys [Hmx [_ [Imx [Imn [Hb Hsum]]]]]]]]]]].
  pose proof (positive_peak xs ys mx mn Hnz Hys Hb Hsum Imn) as Hpos.
  exists ys, mx, (Qred (mx * s)).
  assert (Hd : (Qred (mx * s) == mx * s)%Q) by apply Qred_correct.
  assert (Hd0 : ~ (Qred (mx * s) == 0)%Q) by (rewrite Hd; nra).
  split; [|split; [exact Imx|split; [|split; [exact Hpos|split]]]].
  - unfold prep_audio. cbn [resample bind]. rewrite Hy.
    cbn [bind preemph_stage scale_stage]. rewrite Hmx. cbn [bind fmul].
    now rewrite (map_fdiv_real ys _ Hd0).
  - apply Forall_forall. intros q Hq. destruct (Hb q Hq). split; lra.
  - exact Hd.
  - destruct Hys as [-> | ->]; [reflexivity|apply length_map].
Qed.

(** X7. With only the scaler on at [scale = 1.0], a real waveform with a
    non-zero sample is returned with its length and with every sample in
    [[-1, 1]], the range the docstring gives for the floating waveform. *)
Theorem scale_unit_range (xs : list Q) (r : Z) (quiet : bool) :
  xs <> [] ->
  (exists q, In q xs /\ ~ (q == 0)%Q) ->
  exists zs : list Q,
    prep_audio resample_poly random fmt cast_invalid
      (map Fin xs) r None None None (Some one) np.float32 quiet =
    Ok (Floats (map Fin zs), r) /\
    List.length zs = List.length xs /\
    Forall (fun z => (- 1 <= z <= 1)%Q) zs.
Proof.
  intros Hne Hnz.
  destruct (scaled_output xs r quiet 1 None np.float32 Hne ltac:(lra) Hnz)
    as [ys [mx [d [Hout [Imx [Hb [Hpos [Hd Hlen]]]]]]]].
  exists (map (fun q => Qred (q / d)) ys).
  assert (Hdm : (d == mx)%Q) by (rewrite Hd; ring).
  assert (Hi : (0 <= / d)%Q) by (apply Qinv_le_0_compat; lra).
  assert (Hone : (mx / d == 1)%Q) by (rewrite Hdm; field; lra).
  split; [exact Hout|]. split; [now rewrite length_map|].
  apply Forall_map, Forall_forall. intros q Hq.
  rewrite Forall_forall in Hb. destruct (Hb q Hq) as [Hlo Hhi].
  rewrite Qred_correct. unfold Qdiv in *.
  pose proof (Qmult_le_compat_r _ _ (/ d) Hhi Hi) as H1.
  pose proof (Qmult_le_compat_r _ _ (/ d) Hlo Hi) as H2.
  split; lra.
Qed.

(** X9. One NaN sample decides the whole result: the waveform is never
    flipped by the polarity stage, and with the scaler on every returned
    sample is NaN. *)
Theorem nan_poisons_scaling (audio : list sample) (r : Z) (s : sample)
    (quiet : bool) :
  In NaN audio ->
  prep_audio resample_poly random fmt cast_invalid
    audio r None None None None np.float32 quiet = Ok (Floats audio, r) /\
  prep_audio resample_poly random fmt cast_invalid
    audio r None None None (Some s) np.float32 quiet =
  Ok (Floats (map (fun _ => NaN) audio), r).
Proof.
  intro Hin.
  assert (Hpol : polarity audio = Ok audio).
  { unfold polarity. now rewrite (np_max_NaN audio Hin), (np_min_NaN audio Hin). }
  unfold prep_audio. cbn [resample bind]. rewrite Hpol.
  cbn [bind preemph_stage scale_stage]. split; [reflexivity|].
  rewrite (np_max_NaN audio Hin). cbn [bind dither_stage quantize is_int_type].
  do 3 f_equal. apply map_ext. intro a. now destruct a.
Qed.

(** X10. End to end, with only the scaler on at [scale = 1.0] and an
    integer [output_type] whose maximum is a number of the floating format:
    a real waveform with a non-zero sample is returned with its length, every
    integer within the positive maximum of the type on both sides, and the
    maximum itself is reached.  No conversion is out of range. *)
Theorem prep_audio_full_scale (xs : list Q) (r : Z) (quiet : bool)
    (o : np.dtype) :
  is_int_type o = true ->
  round_int (precision fmt) (np.iinfo_max o) = np.iinfo_max o ->
  xs <> [] ->
  (exists q, In q xs /\ ~ (q == 0)%Q) ->
  exists zs : list Z,
    prep_audio resample_poly random fmt cast_invalid
      (map Fin xs) r None None None (Some one) o quiet = Ok (Ints o zs, r) /\
    List.length zs = List.length xs /\
    Forall (fun z => - np.iinfo_max o <= z <= np.iinfo_max o) zs /\
    In (np.iinfo_max o) zs.
Proof.
  intros Ho Hrep Hne Hnz.
  destruct (scaled_output xs r quiet 1 None o Hne ltac:(lra) Hnz)
    as [ys [mx [d [Hout [Imx [Hb [Hpos [Hd Hlen]]]]]]]].
  assert (Hdm : (d == mx)%Q) by (rewrite Hd; ring).
  assert (Hi : (0 <= / d)%Q) by (apply Qinv_le_0_compat; lra).
  assert (Hone : (mx / d == 1)%Q) by (rewrite Hdm; field; lra).
  unfold one. rewrite Hout. cbn [dither_stage]. unfold quantize.
  rewrite Ho. eexists. split; [reflexivity|].
  rewrite !map_map. split; [now rewrite length_map|]. split.
  - apply Forall_map, Forall_forall. intros q Hq.
    rewrite Forall_forall in Hb. destruct (Hb q Hq) as [Hlo Hhi].
    apply (quantize1_unit fmt cast_invalid o _ Ho Hrep).
    rewrite Qred_correct. unfold Qdiv in *.
    pose proof (Qmult_le_compat_r _ _ (/ d) Hhi Hi) as H1.
    pose proof (Qmult_le_compat_r _ _ (/ d) Hlo Hi) as H2.
    split; lra.
  - apply in_map_iff. exists mx. split; [|exact Imx].
    replace (Qred (mx / d)) with 1%Q
      by (change 1%Q with (Qred 1); now apply Qred_complete).
    destruct (quantize1_unit fmt cast_invalid o 1 Ho Hrep) as [-> _].
    + unfold Qle. cbn. lia.
    + destruct o; try discriminate; reflexivity.
Qed.

(** X12. The quantiser is within one unit of the scaled sample: for an
    integer type whose maximum is a number of the floating format and a
    real sample [v] with [|v| <= 1], the integer returned differs from
    [np.iinfo(output_type).max * v] by less than 1. *)
Theorem quantize_error (o : np.dtype) (v : Q) :
  is_int_type o = true ->
  round_int (precision fmt) (np.iinfo_max o) = np.iinfo_max o ->
  (- 1 <= v <= 1)%Q ->
  (- 1 <
   inject_Z (quantize1 fmt cast_invalid o (Fin v))
   - inject_Z (np.iinfo_max o) * v)%Q /\
  (inject_Z (quantize1 fmt cast_invalid o (Fin v))
   - inject_Z (np.iinfo_max o) * v < 1)%Q.
Proof.
  intros Ho Hrep Hv.
  destruct (quantize1_unit fmt cast_invalid o v Ho Hrep Hv) as [-> _].
  pose proof (rintQ_error (Qred (inject_Z (np.iinfo_max o) * v))) as H.
  pose proof (Qred_correct (inject_Z (np.iinfo_max o) * v)) as Hc.
  set (X := (inject_Z (np.iinfo_max o) * v)%Q) in *.
  set (I := inject_Z (rintQ (Qred X))) in *.
  clearbody I. destruct H. split; lra.
Qed.

(** X13. The quantiser keeps the order of samples: for an integer type
    whose maximum is a number of the floating format and real samples
    [-1 <= v <= w <= 1], the integer for [v] is at most the integer for
    [w]. *)
Theorem quantize_monotone (o : np.dtype) (v w : Q) :
  is_int_type o = true ->
  round_int (precision fmt) (np.iinfo_max o) = np.iinfo_max o ->
  (- 1 <= v)%Q -> (v <= w)%Q -> (w <= 1)%Q ->
  quantize1 fmt cast_invalid o (Fin v) <= quantize1 fmt cast_invalid o (Fin w).
Proof.
  intros Ho Hrep Hlo Hvw Hhi.
  destruct (quantize1_unit fmt cast_invalid o v Ho Hrep) as [-> _];
    [split; lra|].
  destruct (quantize1_unit fmt cast_invalid o w Ho Hrep) as [-> _];
    [split; lra|].
  apply rintQ_mono. rewrite !Qred_correct.
  destruct (int_type_limits o Ho) as [Hpos _].
  assert (H0 : (0 <= inject_Z (np.iinfo_max o))%Q)
    by (change 0%Q with (inject_Z 0); now rewrite <- Zle_Qle).
  nra.
Qed.

(** X14. Normalising twice is normalising once: with only the scaler on at
    [scale = 1.0], the waveform returned for a real waveform with a non-zero
    sample is returned unchanged when [prep_audio] is applied to it again. *)
Theorem prep_audio_idempotent (xs : list Q) (r : Z) (quiet : bool) :
  xs <> [] ->
  (exists q, In q xs /\ ~ (q == 0)%Q) ->
  exists y : list sample,
    prep_audio resample_poly random fmt cast_invalid
      (map Fin xs) r None None None (Some one) np.float32 quiet =
    Ok (Floats y, r) /\
    prep_audio resample_poly random fmt cast_invalid
      y r None None None (Some one) np.float32 quiet =
    Ok (Floats y, r).
Proof.
  intros Hne Hnz.
  destruct (scaled_output xs r quiet 1 None np.float32 Hne ltac:(lra) Hnz)
    as [ys [mx [d [Hout [Imx [Hb [Hpos [Hd _]]]]]]]].
  assert (Hdm : (d == mx)%Q) by (rewrite Hd; ring).
  assert (Hdpos : (0 < d)%Q) by lra.
  assert (Hi : (0 <= / d)%Q) by (apply Qinv_le_0_compat; lra).
  assert (Hone : (mx / d == 1)%Q) by (rewrite Hdm; field; lra).
  set (zs := map (fun q => Qred (q / d)) ys) in *.
  exists (map Fin zs). split; [exact Hout|].
  rewrite Forall_forall in Hb.
  assert (Hmax : np.max (map Fin zs) = Ok (Fin 1)).
  { unfold zs. rewrite (max_of_quotients ys mx d Imx);
      [|intros q Hq; apply (Hb q Hq)|exact Hdpos].
    do 2 f_equal. change 1%Q with (Qred 1). now apply Qred_complete. }
  assert (Hzne : zs <> [])
    by (unfold zs; destruct ys; [contradiction|discriminate]).
  destruct (np_min_real zs Hzne) as [mn [Hmin [Imn _]]].
  assert (Hmn : (- 1 <= mn)%Q).
  { unfold zs in Imn. apply in_map_iff in Imn.
    destruct Imn as [q [<- Hq]]. destruct (Hb q Hq) as [Hlo _].
    rewrite Qred_correct. unfold Qdiv in *.
    pose proof (Qmult_le_compat_r _ _ (/ d) Hlo Hi) as H. lra. }
  unfold prep_audio. cbn [resample bind].
  rewrite (polarity_real zs 1 mn Hmax Hmin).
  assert (Hs : Qltb (1 + mn) 0 = false) by (apply Qltb_ge; lra).
  rewrite Hs. cbn [bind preemph_stage scale_stage]. rewrite Hmax.
  cbn [bind dither_stage quantize is_int_type]. do 3 f_equal.
  unfold one. cbn [fmul].
  change (Qred (1 * 1)) with 1%Q.
  rewrite (map_fdiv_real zs 1) by discriminate. f_equal.
  unfold zs. rewrite map_map. apply map_ext. intro q.
  apply Qred_complete. rewrite Qred_correct. field. lra.
Qed.


End Scaling.

(** ** Evaluation on concrete inputs *)

Lemma hold_resample_empty (up down : Z) (y : list sample) :
  hold_resample [] up down = Ok y -> y = [].
Proof.
  unfold hold_resample. destruct ((up <? 1) || (down <? 1)).
  - discriminate.
  - cbn. intro H. now injection H as <-.
Qed.

Lemma Q_unit_interval (n : Z) (d : positive) :
  - Zpos d <= n <= Zpos d -> (- 1 <= n # d <= 1)%Q.
Proof.
  unfold Qle. cbn. lia.
Qed.

Lemma identity_path_witness :
  [1; - (1 # 2)]%Q <> [] /\
  prep_audio64 [Fin 1; Fin (- (1 # 2))] 8000 None None None None
    np.float32 true = Ok (Floats [Fin 1; Fin (- (1 # 2))], 8000).
Proof.
  assert (Hne : [1; - (1 # 2)]%Q <> []) by discriminate.
  split; [exact Hne|].
  destruct (identity_path hold_resample quarter binary64 cast_min
              [1; - (1 # 2)]%Q 8000 true Hne)
    as [mx [mn [Hmx [Hmn [Hpos _]]]]].
  vm_compute in Hmx, Hmn.
  injection Hmx as <-. injection Hmn as <-.
  apply Hpos. unfold Qle. cbn. lia.
Defined.

(** C1 fails as stated: on the one-sample waveform [-1.0] every optional
    stage is disabled and the result is [1.0]. *)
Lemma identity_path_counterexample :
  [Fin (- 1)] <> [] /\ 0 < 8000 /\
  prep_audio64 [Fin (- 1)] 8000 None None None None np.float32 true
  = Ok (Floats [Fin 1], 8000) /\
  ~ (1 == - 1)%Q.
Proof.
  repeat split; try discriminate; reflexivity.
Qed.


Lemma quantization_range_witness :
  exists zs : list Z,
    quantize binary64 cast_min np.int16
      [Fin 1; Fin (- 1); Fin (1 # 2)] = Ints np.int16 zs /\
    Forall (fun z => - 32767 <= z <= 32767) zs.
Proof.
  destruct (quantization_range binary64 cast_min [1; - 1; 1 # 2]%Q)
    as [zs [Hq [Hr _]]].
  - repeat constructor; unfold Qle; cbn; lia.
  - exists zs. split; assumption.
Defined.

(** C3 fails as stated: -1.0 is quantised to -32767, not to -32768. *)
Lemma quantization_range_counterexample :
  quantize1 binary64 cast_min np.int16 (Fin (- 1)) = - 32767 /\
  quantize binary64 cast_min np.int16 [Fin (- 1)] = Ints np.int16 [- 32767] /\
  - 32767 <> - 32768.
Proof.
  repeat split; try reflexivity. discriminate.
Qed.

Lemma zero_peak_scaling_witness :
  exists out : list sample,
    prep_audio64 [zero; zero; zero] 8000 None None None (Some one)
      np.float32 true = Ok (Floats out, 8000) /\
    Forall (fun v => is_finite v = false) out.
Proof.
  apply (zero_peak_scaling hold_resample quarter binary64 cast_min
           [zero; zero; zero] 8000 None one true
           [zero; zero; zero] [zero; zero; zero] 0);
    reflexivity.
Defined.

(** C4 fails as stated: scaling the silent waveform returns three NaN and
    raises nothing. *)
Lemma zero_peak_scaling_counterexample :
  np.max [zero; zero; zero] = Ok (Fin 0) /\
  prep_audio64 [zero; zero; zero] 8000 None None None (Some one)
    np.float32 true = Ok (Floats [NaN; NaN; NaN], 8000) /\
  ~ raises (prep_audio64 [zero; zero; zero] 8000 None None None (Some one)
              np.float32 true).
Proof.
  repeat split; try reflexivity. intros [e He]. discriminate He.
Qed.

Lemma empty_input_witness :
  raises (prep_audio64 [] 8000 (Some 16000) None None (Some one)
            np.int16 true) /\
  prep_audio64 [] 8000 None None None None np.float32 true
  = Raise ValueError.
Proof.
  split.
  - apply (empty_input hold_resample quarter binary64 cast_min
             8000 (Some 16000) None None (Some one) np.int16 true).
    exact hold_resample_empty.
  - apply (empty_input hold_resample quarter binary64 cast_min
             8000 None None None None np.float32 true).
    + exact hold_resample_empty.
    + now left.
Defined.



Lemma unrecognized_output_type_witness :
  prep_audio64 [Fin (1 # 2)] 8000 None None None None np.uint8 true =
  prep_audio64 [Fin (1 # 2)] 8000 None None None None np.float32 true.
Proof.
  apply (unrecognized_output_type hold_resample quarter binary64 cast_min).
  reflexivity.
Defined.

(** C7 fails as stated: with the unsigned type [uint8], and with an object
    that is no NumPy type at all, the floating waveform comes back
    unquantised and nothing is raised. *)
Lemma unrecognized_output_type_counterexample :
  prep_audio64 [Fin (1 # 2)] 8000 None None None None np.uint8 true
  = Ok (Floats [Fin (1 # 2)], 8000) /\
  prep_audio64 [Fin (1 # 2)] 8000 None None None None
    (np.other "int") true
  = Ok (Floats [Fin (1 # 2)], 8000).
Proof.
  split; reflexivity.
Qed.

Lemma preemphasis_filter_witness :
  let x := [Fin 4; Fin 2; Fin 1] in
  (exists y : list sample,
     preemph_stage (Some (Fin (1 # 2))) x = Ok y /\
     nth 0 y NaN =
     fadd (Fin 4) (fsub (fmul (Fin 2) (Fin 4)) (Fin 2)) /\
     nth 2 y NaN = fsub (Fin 1) (fmul (Fin (1 # 2)) (Fin 2))) /\
  preemph_stage (Some (Fin (1 # 2))) [Fin 4] = Raise ValueError /\
  preemph_stage (Some (Fin (- 1))) x = Ok x.
Proof.
  intro x.
  destruct (preemphasis_filter x (1 # 2)) as [Hpos _].
  destruct (preemphasis_filter [Fin 4] (1 # 2)) as [_ [Hshort _]].
  destruct (preemphasis_filter x (- 1)) as [_ [_ [Hneg _]]].
  destruct Hpos as [y [Hy [_ [H0 [_ Hn]]]]];
    [reflexivity|cbn; lia|].
  split; [|split].
  - exists y. split; [exact Hy|]. split; [exact H0|].
    apply (Hn 2%nat). cbn. lia.
  - apply Hshort; [reflexivity|cbn; lia].
  - apply Hneg. unfold Qle. cbn. lia.
Defined.

(** C8 fails as stated: on [[4, 2, 1]] with [preemph = 0.5] the first
    output sample is 10, not 4, and a one-sample waveform is rejected. *)
Lemma preemphasis_filter_counterexample :
  (0 < 1 # 2)%Q /\
  preemph_stage (Some (Fin (1 # 2))) [Fin 4; Fin 2; Fin 1] =
  Ok [Fin 10; Fin 0; Fin 0] /\
  ~ (10 == 4)%Q /\
  preemph_stage (Some (Fin (1 # 2))) [Fin 4] = Raise ValueError /\
  prep_audio64 [Fin 4; Fin 2; Fin 1] 8000 None None (Some (Fin (1 # 2)))
    None np.float32 true = Ok (Floats [Fin 10; Fin 0; Fin 0], 8000).
Proof.
  repeat split; try reflexivity. discriminate.
Qed.

Lemma polarity_invariant_witness :
  polarity [Fin (- 1); Fin (1 # 2)] = Ok [Fin 1; Fin (- (1 # 2))] /\
  polarity [Fin 1; Fin (- (1 # 2))] = Ok [Fin 1; Fin (- (1 # 2))].
Proof.
  split.
  - destruct (polarity_invariant [- 1; 1 # 2]%Q)
      as [mx [mn [Hmx [Hmn [Hneg _]]]]]; [discriminate|].
    vm_compute in Hmx, Hmn. injection Hmx as <-. injection Hmn as <-.
    apply Hneg. reflexivity.
  - destruct (polarity_invariant [1; - (1 # 2)]%Q)
      as [mx [mn [Hmx [Hmn [_ Hpos]]]]]; [discriminate|].
    vm_compute in Hmx, Hmn. injection Hmx as <-. injection Hmn as <-.
    apply Hpos. unfold Qlt. cbn. lia.
Defined.

Lemma quantize_odd_witness :
  quantize1 binary64 cast_min np.int16 (fneg (Fin (1 # 2))) =
  - quantize1 binary64 cast_min np.int16 (Fin (1 # 2)) /\
  quantize1 binary64 cast_min np.int16 (Fin (1 # 2)) <> np.iinfo_min np.int16.
Proof.
  destruct (quantize_odd binary64 cast_min np.int16 (1 # 2))
    as [Hodd [_ Hmin]].
  - reflexivity.
  - reflexivity.
  - apply Q_unit_interval. lia.
  - split; assumption.
Defined.

(** C10. The quantiser is meant to be odd and never to produce the most
    negative value of the type, and it is so for [int8], [int16] and [int32]
    ([quantize_odd]); for [int64] it is not.  The multiplier
    [np.iinfo(np.int64).max = 2^63 - 1] is converted to the floating format
    of the array, where it becomes [2^63]: -1.0 is quantised to [-2^63], the
    most negative [int64], and 1.0 to [2^63], which [int64] cannot hold. *)
Theorem quantize_int64_full_scale (cast_invalid : np.dtype -> sample -> Z) :
  float_of_int binary64 (np.iinfo_max np.int64) =
  Fin (inject_Z 9223372036854775808) /\
  quantize1 binary64 cast_invalid np.int64 (Fin (- 1)) =
  np.iinfo_min np.int64 /\
  quantize1 binary64 cast_invalid np.int64 (Fin 1) =
  cast_invalid np.int64 (Fin (inject_Z 9223372036854775808)) /\
  prep_audio hold_resample quarter binary64 cast_invalid
    [Fin (- 1); Fin 1] 16000 None None None None np.int64 true =
  Ok (Ints np.int64
        [- 9223372036854775808;
         cast_invalid np.int64 (Fin (inject_Z 9223372036854775808))],
      16000).
Proof.
  repeat split; reflexivity.
Qed.

(** ** The further properties on concrete inputs *)

Lemma nonzero_sample (n : Z) (d : positive) (t : list Q) :
  n <> 0 -> exists q, In q ((n # d) :: t) /\ ~ (q == 0)%Q.
Proof.
  intro Hn. exists (n # d). split; [now left|].
  unfold Qeq. cbn. lia.
Qed.

Lemma prep_audio_size_witness :
  exists out : ndarray,
    prep_audio64 [Fin 1; Fin (- 2)] 8000 None None (Some (Fin (1 # 2)))
      (Some one) np.int16 true = Ok (out, 8000) /\
    size out = 2%nat.
Proof.
  destruct (prep_audio_size hold_resample quarter binary64 cast_min
              [Fin 1; Fin (- 2)] 8000 None None (Some (Fin (1 # 2)))
              (Some one) np.int16 true) as [out [Hout [Hsize _]]].
  - discriminate.
  - now left.
  - intros c _ _. cbn. lia.
  - exists out. split; assumption.
Defined.

Lemma prep_audio_rate_witness :
  prep_audio64 [Fin 1; Fin 2] 8000 (Some 16000) None None None
    np.float32 true = Ok (Floats [Fin 1; Fin 1; Fin 2; Fin 2], 16000) /\
  16000 = 16000.
Proof.
  split; [reflexivity|].
  apply (prep_audio_rate hold_resample quarter binary64 cast_min
           [Fin 1; Fin 2] 8000 (Some 16000) None None None np.float32 true
           (Floats [Fin 1; Fin 1; Fin 2; Fin 2]) 16000).
  reflexivity.
Defined.

Lemma resample_factors_witness :
  exists up down : Z,
    up * 100 = 16000 /\ down * 100 = 44100 /\ Z.gcd up down = 1 /\
    1 <= up /\ 1 <= down.
Proof.
  destruct (resample_factors hold_resample [Fin 1] 44100 16000)
    as [up [down [_ [Hup [Hdown [Hg Hpos]]]]]]; [cbn; lia|cbn; lia|lia|].
  exists up, down. change (np.gcd 44100 16000) with 100 in Hup, Hdown.
  destruct Hpos as [H1 H2]; [lia|lia|]. repeat split; assumption.
Defined.

Lemma polarity_idempotent_witness :
  exists y : list sample,
    polarity [Fin (- 1); Fin (1 # 2)] = Ok y /\ polarity y = Ok y.
Proof.
  apply (polarity_idempotent [- 1; 1 # 2]%Q). discriminate.
Defined.

Lemma polarity_canonical_witness :
  polarity (map fneg [Fin 1; Fin (- 2)]) = polarity [Fin 1; Fin (- 2)].
Proof.
  apply (polarity_canonical [1; - 2]%Q 1 (- 2)); try reflexivity.
  unfold Qeq. cbn. lia.
Defined.

Lemma polarity_peak_witness :
  exists (ys : list Q) (mx : Q),
    polarity [Fin 1; Fin (- 2)] = Ok (map Fin ys) /\
    np.max (map Fin ys) = Ok (Fin mx) /\
    In mx ys /\
    Forall (fun q => (- mx <= q <= mx)%Q) ys.
Proof.
  apply (polarity_peak [1; - 2]%Q). discriminate.
Defined.

Lemma nan_poisons_scaling_witness :
  prep_audio64 [Fin 1; NaN; Fin (- 3)] 8000 None None None None
    np.float32 true = Ok (Floats [Fin 1; NaN; Fin (- 3)], 8000) /\
  prep_audio64 [Fin 1; NaN; Fin (- 3)] 8000 None None None (Some one)
    np.float32 true = Ok (Floats [NaN; NaN; NaN], 8000).
Proof.
  apply (nan_poisons_scaling hold_resample quarter binary64 cast_min
           [Fin 1; NaN; Fin (- 3)] 8000 one true).
  right. now left.
Defined.

Lemma prep_audio_full_scale_witness :
  exists zs : list Z,
    prep_audio64 [Fin (1 # 2); Fin (- (1 # 4))] 8000 None None None
      (Some one) np.int16 true = Ok (Ints np.int16 zs, 8000) /\
    In 32767 zs.
Proof.
  destruct (prep_audio_full_scale hold_resample quarter binary64 cast_min
              [1 # 2; - (1 # 4)]%Q 8000 true np.int16)
    as [zs [Hout [_ [_ Hin]]]].
  - reflexivity.
  - reflexivity.
  - discriminate.
  - apply nonzero_sample. lia.
  - exists zs. split; assumption.
Defined.

Lemma quantize_error_witness :
  (- 1 <
   inject_Z (quantize1 binary64 cast_min np.int16 (Fin (1 # 3)))
   - inject_Z 32767 * (1 # 3))%Q /\
  (inject_Z (quantize1 binary64 cast_min np.int16 (Fin (1 # 3)))
   - inject_Z 32767 * (1 # 3) < 1)%Q.
Proof.
  apply (quantize_error binary64 cast_min np.int16 (1 # 3)).
  - reflexivity.
  - reflexivity.
  - apply Q_unit_interval. lia.
Defined.

Lemma scale_unit_range_witness :
  exists zs : list Q,
    prep_audio64 [Fin (1 # 2); Fin (- (1 # 4))] 8000 None None None
      (Some one) np.float32 true = Ok (Floats (map Fin zs), 8000) /\
    Forall (fun z => (- 1 <= z <= 1)%Q) zs.
Proof.
  destruct (scale_unit_range hold_resample quarter binary64 cast_min
              [1 # 2; - (1 # 4)]%Q 8000 true)
    as [zs [Hout [_ Hall]]].
  - discriminate.
  - apply nonzero_sample. lia.
  - exists zs. split; assumption.
Defined.

Lemma quantize_monotone_witness :
  quantize1 binary64 cast_min np.int16 (Fin (- (1 # 2))) <=
  quantize1 binary64 cast_min np.int16 (Fin (1 # 3)).
Proof.
  apply (quantize_monotone binary64 cast_min np.int16 (- (1 # 2)) (1 # 3)).
  - reflexivity.
  - reflexivity.
  - unfold Qle. cbn. lia.
  - unfold Qle. cbn. lia.
  - unfold Qle. cbn. lia.
Defined.

Lemma prep_audio_idempotent_witness :
  exists y : list sample,
    prep_audio64 [Fin 3; Fin (- 1)] 8000 None None None (Some one)
      np.float32 true = Ok (Floats y, 8000) /\
    prep_audio64 y 8000 None None None (Some one) np.float32 true =
    Ok (Floats y, 8000).
Proof.
  apply (prep_audio_idempotent hold_resample quarter binary64 cast_min
           [3; - 1]%Q 8000 true).
  - discriminate.
  - apply nonzero_sample. lia.
Defined.

